(** * torch::utils::Future<T> — a sequential model of the completion protocol

    Source: torch/csrc/utils/future.h.

    The class is embedded as a record of its data members together with one
    monadic definition per member function.  The monad threads a [State]
    (the cell, the world outside the cell, and the trace of calls the cell
    makes to the outside) and records how a call ends: it returns, it throws,
    or it blocks on the condition variable.

    Scope of the model.
    - One thread of control.  [mutex_] is taken and released inside every
      member function and is therefore not a field here; a wait on
      [finished_cv_] whose predicate is false has nobody to wake it and is the
      outcome [Block].  Interleavings, wake-ups of other threads and memory
      ordering are outside the model.
    - A callback is a function of the value, the optional error and the world
      outside the cell; it may change that world and it may throw.  It does
      not call back into the cell it is registered on.
    - [moveValue] hands out an rvalue reference to [value_]; what the caller's
      move leaves in the slot is the parameter [moved_from]. *)

From Stdlib Require Import Ascii String List Bool Arith Lia.
Import ListNotations.
Open Scope string_scope.
Open Scope list_scope.

(** ** FutureError *)

(** [class FutureError : std::exception], one [std::string] member. *)
Record FutureError : Type := mkFutureError { errorMsg_ : string }.

(** [FutureError() = default]. *)
Definition FutureError_default : FutureError := mkFutureError "".

(** A [const char*] into the buffer of a [std::string], read the way a C
    string is read: the bytes before the first NUL byte. *)
Fixpoint c_str (s : string) : string :=
  match s with
  | EmptyString => EmptyString
  | String c s' =>
      if Ascii.eqb c Ascii.zero then EmptyString else String c (c_str s')
  end.

(** Whether a [std::string] holds a NUL byte. *)
Fixpoint has_nul (s : string) : bool :=
  match s with
  | EmptyString => false
  | String c s' => Ascii.eqb c Ascii.zero || has_nul s'
  end.

(** [const char* what() const noexcept { return errorMsg_.c_str(); }] *)
Definition what (e : FutureError) : string := c_str (errorMsg_ e).

(** What a member function of the cell, or a callback, can throw. *)
Inductive Exn : Type :=
| DoubleComplete                    (* a failed TORCH_CHECK(!completed())   *)
| AsyncFailure (e : FutureError)    (* [throw *error_] in [wait]            *)
| UserExn (tag : string).           (* anything else a callback throws      *)

(** How a call ends. *)
Inductive Result (A : Type) : Type :=
| Ret (a : A)
| Throw (x : Exn)
| Block.
Arguments Ret {A} a.
Arguments Throw {A} x.
Arguments Block {A}.

Module Future.
Section Model.

(** [T]: the element type; [W]: the state of the program outside the cell
    (what callbacks and the recorder act on). *)
Context {T W : Type}.
(** The value a default-initialised [T value_;] holds. *)
Variable default_T : T.
(** The state a [T] is left in after it was moved from. *)
Variable moved_from : T -> T.

(** [std::function<void(const T&, const c10::optional<FutureError>&)>]:
    the new outside world, and the exception if the call threw. *)
Definition Callback : Type := T -> option FutureError -> W -> W * option Exn.

(** [torch::autograd::profiler::RecordFunction], seen through the one
    member the cell uses. *)
Record RecordFunction : Type := mkRecordFunction { end_ : W -> W }.

(** The data members.  A null [shared_ptr] is [None]. *)
Record Future : Type := mkFuture {
  completed_ : bool;
  callbacks_ : list Callback;
  value_ : T;
  error_ : option FutureError;
  rf_ : option RecordFunction
}.

(** Calls that leave the cell, in the order they are made. *)
Inductive Event : Type :=
| EvEnd (rf : RecordFunction)
| EvCall (cb : Callback) (v : T) (e : option FutureError)
| EvNotifyAll.

Record State : Type := mkState {
  fut : Future;
  world : W;
  trace : list Event
}.

(** *** The monad *)

Definition M (A : Type) : Type := State -> Result A * State.

Definition ret {A} (a : A) : M A := fun st => (Ret a, st).

Definition bind {A B} (m : M A) (k : A -> M B) : M B :=
  fun st =>
    match m st with
    | (Ret a, st') => k a st'
    | (Throw x, st') => (Throw x, st')
    | (Block, st') => (Block, st')
    end.

Definition throw {A} (x : Exn) : M A := fun st => (Throw x, st).
Definition block {A} : M A := fun st => (Block, st).

Notation "x <- m ;; k" := (bind m (fun x => k))
  (at level 61, m at next level, right associativity).
Notation "m ;; k" := (bind m (fun _ => k))
  (at level 61, right associativity).

Definition gets {A} (proj : Future -> A) : M A :=
  fun st => (Ret (proj (fut st)), st).

Definition modify (f : Future -> Future) : M unit :=
  fun st => (Ret tt, mkState (f (fut st)) (world st) (trace st)).

Definition set_completed_ (b : bool) (f : Future) : Future :=
  mkFuture b (callbacks_ f) (value_ f) (error_ f) (rf_ f).
Definition set_callbacks_ (q : list Callback) (f : Future) : Future :=
  mkFuture (completed_ f) q (value_ f) (error_ f) (rf_ f).
Definition set_value_ (v : T) (f : Future) : Future :=
  mkFuture (completed_ f) (callbacks_ f) v (error_ f) (rf_ f).
Definition set_error_ (e : option FutureError) (f : Future) : Future :=
  mkFuture (completed_ f) (callbacks_ f) (value_ f) e (rf_ f).
Definition set_rf_ (r : option RecordFunction) (f : Future) : Future :=
  mkFuture (completed_ f) (callbacks_ f) (value_ f) (error_ f) r.

(** Modelled from the spec: the macro TORCH_CHECK (c10/util/Exception.h is
    not part of the sources).  A check that fails is the fatal error the
    spec names DoubleComplete; a check that holds does nothing. *)
Definition TORCH_CHECK (cond : bool) : M unit :=
  if cond then ret tt else throw DoubleComplete.

(** [finished_cv_.wait(lock, pred)] with nobody else running. *)
Definition cv_wait (pred : M bool) : M unit :=
  b <- pred ;; if b then ret tt else block.

(** [finished_cv_.notify_all()]. *)
Definition notify_all : M unit :=
  fun st => (Ret tt, mkState (fut st) (world st) (trace st ++ [EvNotifyAll])).

(** [rf_->end()]. *)
Definition call_end (r : RecordFunction) : M unit :=
  fun st => (Ret tt, mkState (fut st) (end_ r (world st)) (trace st ++ [EvEnd r])).

(** [callback(value_, error_)]: both arguments are read from the cell at
    the moment of the call. *)
Definition invoke (cb : Callback) : M unit :=
  fun st =>
    let v := value_ (fut st) in
    let e := error_ (fut st) in
    let r := cb v e (world st) in
    (match snd r with None => Ret tt | Some x => Throw x end,
     mkState (fut st) (fst r) (trace st ++ [EvCall cb v e])).

(** [for (auto& callback : cbs) ...]. *)
Fixpoint for_each {A} (l : list A) (body : A -> M unit) : M unit :=
  match l with
  | [] => ret tt
  | a :: l' => body a ;; for_each l' body
  end.

(** [std::vector<Callback> cbs; cbs.swap(callbacks_);] *)
Definition swap_callbacks : M (list Callback) :=
  cbs <- gets callbacks_ ;;
  modify (set_callbacks_ []) ;;
  ret cbs.

(** *** Constructors *)

(** [Future() = default;] *)
Definition Future_default : Future :=
  mkFuture false [] default_T None None.

(** [Future(T value) : completed_(true), value_(std::move(value)), rf_(nullptr)] *)
Definition Future_value (value : T) : Future :=
  mkFuture true [] value None None.

(** *** Member functions *)

Definition completed : M bool := gets completed_.

Definition wait : M T :=
  cv_wait (gets completed_) ;;
  e <- gets error_ ;;
  match e with
  | Some err => throw (AsyncFailure err)
  | None => gets value_
  end.

Definition waitNoThrow : M T :=
  cv_wait (gets completed_) ;;
  gets value_.

Definition moveValue : M T :=
  v <- gets value_ ;;
  modify (set_value_ (moved_from v)) ;;
  ret v.

Definition markCompleted (value : T) : M unit :=
  c <- completed ;;
  TORCH_CHECK (negb c) ;;
  modify (set_value_ value) ;;
  modify (set_completed_ true) ;;
  cbs <- swap_callbacks ;;
  r <- gets rf_ ;;
  match r with Some rf => call_end rf | None => ret tt end ;;
  for_each cbs invoke ;;
  notify_all.

Definition setError (errorMsg : string) : M unit :=
  c <- completed ;;
  TORCH_CHECK (negb c) ;;
  modify (set_error_ (Some (mkFutureError errorMsg))) ;;
  modify (set_completed_ true) ;;
  cbs <- swap_callbacks ;;
  for_each cbs invoke ;;
  notify_all.

Definition hasError : M bool :=
  e <- gets error_ ;;
  ret (match e with Some _ => true | None => false end).

Definition error : M (option FutureError) := gets error_.

Definition addCallback (callback : Callback) : M unit :=
  c <- completed ;;
  if c then invoke callback
  else modify (fun f => set_callbacks_ (callbacks_ f ++ [callback]) f).

Definition attachRecordFunction (rf : option RecordFunction) : M unit :=
  modify (set_rf_ rf).

(** *** Histories of calls *)

Inductive Op : Type :=
| OpWait
| OpWaitNoThrow
| OpMoveValue
| OpMarkCompleted (value : T)
| OpSetError (errorMsg : string)
| OpCompleted
| OpHasError
| OpError
| OpAddCallback (callback : Callback)
| OpAttachRecordFunction (rf : option RecordFunction).

(** The state a call leaves behind, however it ended. *)
Definition exec (op : Op) (st : State) : State :=
  match op with
  | OpWait => snd (wait st)
  | OpWaitNoThrow => snd (waitNoThrow st)
  | OpMoveValue => snd (moveValue st)
  | OpMarkCompleted v => snd (markCompleted v st)
  | OpSetError m => snd (setError m st)
  | OpCompleted => snd (completed st)
  | OpHasError => snd (hasError st)
  | OpError => snd (error st)
  | OpAddCallback cb => snd (addCallback cb st)
  | OpAttachRecordFunction r => snd (attachRecordFunction r st)
  end.

Definition run (ops : list Op) (st : State) : State :=
  fold_left (fun s op => exec op s) ops st.

(** A cell as it comes out of one of the two constructors. *)
Definition fresh (w : W) : State := mkState Future_default w [].
Definition fresh_value (v : T) (w : W) : State := mkState (Future_value v) w [].

Inductive reachable : State -> Prop :=
| reach_default : forall w, reachable (fresh w)
| reach_value : forall v w, reachable (fresh_value v w)
| reach_exec : forall op st, reachable st -> reachable (exec op st).

Definition is_moveValue (op : Op) : bool :=
  match op with OpMoveValue => true | _ => false end.

(** The callbacks handed to [addCallback] in a history, in order. *)
Fixpoint registered (ops : list Op) : list Callback :=
  match ops with
  | [] => []
  | OpAddCallback cb :: ops' => cb :: registered ops'
  | _ :: ops' => registered ops'
  end.

(** A callback that returns normally whatever it is given. *)
Definition nothrow (cb : Callback) : Prop :=
  forall v e w, snd (cb v e w) = None.

Definition is_end (ev : Event) : bool :=
  match ev with EvEnd _ => true | _ => false end.

(** How many times [end()] was called on a recorder. *)
Definition count_end (tr : list Event) : nat := length (filter is_end tr).


(** What [if (rf_) rf_->end();] adds to the trace and does to the world. *)
Definition end_events (r : option RecordFunction) : list Event :=
  match r with Some rf => [EvEnd rf] | None => [] end.
Definition end_world (r : option RecordFunction) (w : W) : W :=
  match r with Some rf => end_ rf w | None => w end.

(** An incomplete cell carries no error; a completed cell has an empty
    queue. *)
Definition cell_inv (f : Future) : Prop :=
  (completed_ f = false -> error_ f = None) /\
  (completed_ f = true -> callbacks_ f = []).

(** The ways a cell becomes completed: by the value constructor, by a
    completion of an incomplete cell, and then for good. *)
Inductive completed_by : State -> Prop :=
| by_value : forall v w tr, completed_by (mkState (Future_value v) w tr)
| by_markCompleted : forall v st,
    completed_ (fut st) = false -> completed_by (snd (markCompleted v st))
| by_setError : forall msg st,
    completed_ (fut st) = false -> completed_by (snd (setError msg st))
| by_later : forall op st, completed_by st -> completed_by (exec op st).

(** *** Reading histories and traces *)

(** The two member functions that complete a cell. *)
Definition is_completion (op : Op) : bool :=
  match op with OpMarkCompleted _ | OpSetError _ => true | _ => false end.

(** The member functions declared to read only: the two waits and the three
    queries. *)
Definition is_observer (op : Op) : bool :=
  match op with
  | OpWait | OpWaitNoThrow | OpCompleted | OpHasError | OpError => true
  | _ => false
  end.

(** The recorder a history leaves in [rf_], starting from [r]. *)
Fixpoint last_attached (ops : list Op) (r : option RecordFunction)
  : option RecordFunction :=
  match ops with
  | [] => r
  | OpAttachRecordFunction r' :: ops' => last_attached ops' r'
  | _ :: ops' => last_attached ops' r
  end.

Definition is_notify (ev : Event) : bool :=
  match ev with EvNotifyAll => true | _ => false end.

(** How many times [notify_all()] was called. *)
Definition count_notify (tr : list Event) : nat := length (filter is_notify tr).

(** The callbacks a trace shows as called, in the order of the calls. *)
Fixpoint calls (tr : list Event) : list Callback :=
  match tr with
  | [] => []
  | EvCall cb _ _ :: tr' => cb :: calls tr'
  | _ :: tr' => calls tr'
  end.

End Model.

(** ** A concrete cell

    [Future<int>] in a program whose outside world is a log of lines: the
    recorder writes a line when it is ended, a callback writes its name. *)
Module Demo.

Definition T : Type := nat.
Definition W : Type := list string.
Definition default_T : T := 0.
Definition moved_from (_ : T) : T := 0.

Definition recorder : @RecordFunction W :=
  mkRecordFunction (fun log => log ++ ["end"]).

(** A callback that writes its name and returns. *)
Definition named (name : string) : @Callback T W :=
  fun _ _ log => (log ++ [name], None).

(** A callback that writes its name and throws. *)
Definition thrower (name : string) : @Callback T W :=
  fun _ _ log => (log ++ [name], Some (UserExn name)).

Definition empty_cell : @State T W := fresh default_T [].

(** [Future<int> f; f.attachRecordFunction(rf);] *)
Definition profiled_cell : @State T W :=
  exec moved_from (OpAttachRecordFunction (Some recorder)) empty_cell.

(** [f.addCallback(c1); f.addCallback(c2); f.addCallback(c3);] *)
Definition three_callbacks : list (@Op T W) :=
  [OpAddCallback (named "c1"); OpAddCallback (named "c2");
   OpAddCallback (named "c3")].

(** A second recorder, told apart from the first by the line it writes. *)
Definition recorder2 : @RecordFunction W :=
  mkRecordFunction (fun log => log ++ ["end2"]).

(** [f.addCallback(c1); f.addCallback(c2 /* throws */); f.addCallback(c3);] *)
Definition callbacks_with_thrower : list (@Op T W) :=
  [OpAddCallback (named "c1"); OpAddCallback (thrower "c2");
   OpAddCallback (named "c3")].

End Demo.

Section Facts.

Context {T W : Type} (default_T : T) (moved_from : T -> T).

Local Abbreviation State := (@State T W).
Local Abbreviation Callback := (@Callback T W).
Local Abbreviation Op := (@Op T W).
Local Abbreviation Event := (@Event T W).
Local Abbreviation RecordFunction := (@RecordFunction W).
Local Abbreviation moveValue := (moveValue moved_from).
Local Abbreviation exec := (exec moved_from).
Local Abbreviation run := (run moved_from).
Local Abbreviation reachable := (reachable default_T moved_from).
Local Abbreviation completed_by := (completed_by moved_from).
Local Abbreviation fresh := (fresh default_T).

Notation "m ;; k" := (bind m (fun _ => k))
  (at level 61, right associativity).

(** ** Basic facts about the loop and the two completion paths *)

Ltac open_state st :=
  let c := fresh "c" in let q := fresh "q" in let v := fresh "v" in
  let e := fresh "e" in let r := fresh "r" in
  let w := fresh "w" in let tr := fresh "tr" in
  destruct st as [[c q v e r] w tr]; cbn [fut world trace completed_ callbacks_
    value_ error_ rf_] in *.

(** The dispatch loop never writes to the cell. *)
Lemma for_each_invoke_fut (cbs : list Callback) (st : State) :
  fut (snd (for_each cbs invoke st)) = fut st.
Proof.
  revert st. induction cbs as [|cb cbs IH]; intros st; [reflexivity|].
  cbn [for_each]. unfold bind at 1. unfold invoke at 1.
  destruct (snd (cb _ _ _)); cbn [snd fut]; [reflexivity|].
  rewrite IH. reflexivity.
Qed.

(** The dispatch loop only adds [EvCall] events. *)
Lemma for_each_invoke_count_end (cbs : list Callback) (st : State) :
  count_end (trace (snd (for_each cbs invoke st))) = count_end (trace st).
Proof.
  revert st. induction cbs as [|cb cbs IH]; intros st; [reflexivity|].
  cbn [for_each]. unfold bind at 1. unfold invoke at 1.
  assert (E : count_end (trace st ++ [EvCall cb (value_ (fut st)) (error_ (fut st))])
              = count_end (trace st)).
  { unfold count_end. rewrite filter_app, length_app. cbn. lia. }
  destruct (snd (cb _ _ _)); cbn [snd trace]; [exact E|].
  rewrite IH. exact E.
Qed.

(** With callbacks that return normally the loop calls every one of them,
    once, front to back, each with the cell's value and error. *)
Lemma for_each_invoke_nothrow (cbs : list Callback) (st : State) :
  Forall nothrow cbs ->
  for_each cbs invoke st =
    (Ret tt,
     mkState (fut st)
       (fold_left (fun w cb => fst (cb (value_ (fut st)) (error_ (fut st)) w))
                  cbs (world st))
       (trace st ++ map (fun cb => EvCall cb (value_ (fut st)) (error_ (fut st))) cbs)).
Proof.
  revert st. induction cbs as [|cb cbs IH]; intros st H.
  - cbn. rewrite app_nil_r. destruct st; reflexivity.
  - inversion H as [|? ? Hcb Hcbs]; subst.
    cbn [for_each]. unfold bind at 1. unfold invoke at 1.
    rewrite Hcb. rewrite (IH _ Hcbs). cbn [fut world trace].
    cbn [fold_left map]. rewrite <- app_assoc. reflexivity.
Qed.

Lemma markCompleted_completed (value : T) (st : State) :
  completed_ (fut st) = true ->
  markCompleted value st = (Throw DoubleComplete, st).
Proof.
  intros H. unfold markCompleted, completed, gets, bind. rewrite H. reflexivity.
Qed.

Lemma setError_completed (errorMsg : string) (st : State) :
  completed_ (fut st) = true ->
  setError errorMsg st = (Throw DoubleComplete, st).
Proof.
  intros H. unfold setError, completed, gets, bind. rewrite H. reflexivity.
Qed.

(** [markCompleted] on an incomplete cell, unfolded up to the loop. *)
Lemma markCompleted_incomplete (value : T) (st : State) :
  completed_ (fut st) = false ->
  markCompleted value st =
    (for_each (callbacks_ (fut st)) invoke ;; notify_all)
      (mkState (mkFuture true [] value (error_ (fut st)) (rf_ (fut st)))
               (end_world (rf_ (fut st)) (world st))
               (trace st ++ end_events (rf_ (fut st)))).
Proof.
  open_state st. intros ->.
  unfold markCompleted, completed, swap_callbacks, gets, modify, bind at 1 2 3 4 5 6 7 8.
  cbn. destruct r; cbn; [reflexivity|]. rewrite app_nil_r. reflexivity.
Qed.

(** [setError] on an incomplete cell, unfolded up to the loop. *)
Lemma setError_incomplete (errorMsg : string) (st : State) :
  completed_ (fut st) = false ->
  setError errorMsg st =
    (for_each (callbacks_ (fut st)) invoke ;; notify_all)
      (mkState (mkFuture true [] (value_ (fut st))
                         (Some (mkFutureError errorMsg)) (rf_ (fut st)))
               (world st) (trace st)).
Proof.
  open_state st. intros ->.
  unfold setError, completed, swap_callbacks, gets, modify, bind at 1 2 3 4 5 6.
  cbn. reflexivity.
Qed.

(** The loop followed by the broadcast leaves the cell as the loop found it. *)
Lemma dispatch_fut (cbs : list Callback) (st : State) :
  fut (snd ((for_each cbs invoke ;; notify_all) st)) = fut st.
Proof.
  unfold bind. pose proof (for_each_invoke_fut cbs st) as H.
  destruct (for_each cbs invoke st) as [[[]| |] st']; cbn in *; exact H.
Qed.

Lemma markCompleted_fut (value : T) (st : State) :
  completed_ (fut st) = false ->
  fut (snd (markCompleted value st)) =
    mkFuture true [] value (error_ (fut st)) (rf_ (fut st)).
Proof.
  intros H. rewrite (markCompleted_incomplete _ _ H), dispatch_fut. reflexivity.
Qed.

Lemma setError_fut (errorMsg : string) (st : State) :
  completed_ (fut st) = false ->
  fut (snd (setError errorMsg st)) =
    mkFuture true [] (value_ (fut st)) (Some (mkFutureError errorMsg)) (rf_ (fut st)).
Proof.
  intros H. rewrite (setError_incomplete _ _ H), dispatch_fut. reflexivity.
Qed.


(** ** What each call preserves *)

(** The two waits and the queries never write. *)
Lemma wait_state (st : State) : snd (wait st) = st.
Proof.
  unfold wait, cv_wait, gets, bind, ret, block, throw.
  destruct (completed_ (fut st)); [|reflexivity].
  destruct (error_ (fut st)); reflexivity.
Qed.

Lemma waitNoThrow_state (st : State) : snd (waitNoThrow st) = st.
Proof.
  unfold waitNoThrow, cv_wait, gets, bind, ret, block.
  destruct (completed_ (fut st)); reflexivity.
Qed.

Lemma addCallback_completed (cb : Callback) (st : State) :
  completed_ (fut st) = true -> addCallback cb st = invoke cb st.
Proof.
  intros H. unfold addCallback, completed, gets, bind. rewrite H. reflexivity.
Qed.

Lemma addCallback_incomplete (cb : Callback) (st : State) :
  completed_ (fut st) = false ->
  addCallback cb st =
    (Ret tt, mkState (set_callbacks_ (callbacks_ (fut st) ++ [cb]) (fut st))
                     (world st) (trace st)).
Proof.
  intros H. unfold addCallback, completed, gets, bind. rewrite H. reflexivity.
Qed.

(** A call on a completed cell changes at most [value_] (by [moveValue])
    and [rf_] (by [attachRecordFunction]). *)
Lemma exec_completed_frame (op : Op) (st : State) :
  completed_ (fut st) = true ->
  completed_ (fut (exec op st)) = true /\
  error_ (fut (exec op st)) = error_ (fut st) /\
  callbacks_ (fut (exec op st)) = callbacks_ (fut st) /\
  (is_moveValue op = false -> value_ (fut (exec op st)) = value_ (fut st)).
Proof.
  intros H. destruct op; cbn [exec];
    rewrite ?wait_state, ?waitNoThrow_state, ?(markCompleted_completed _ _ H),
      ?(setError_completed _ _ H), ?(addCallback_completed _ _ H);
    cbn; repeat split; try assumption; try reflexivity; discriminate.
Qed.

Lemma exec_completed_mono (op : Op) (st : State) :
  completed_ (fut st) = true -> completed_ (fut (exec op st)) = true.
Proof. intros H. apply (exec_completed_frame op st H). Qed.

Lemma run_cons (op : Op) (ops : list Op) (st : State) :
  run (op :: ops) st = run ops (exec op st).
Proof. reflexivity. Qed.

Lemma run_app (ops1 ops2 : list Op) (st : State) :
  run (ops1 ++ ops2) st = run ops2 (run ops1 st).
Proof. apply fold_left_app. Qed.

Lemma run_completed_frame (ops : list Op) (st : State) :
  completed_ (fut st) = true ->
  completed_ (fut (run ops st)) = true /\
  error_ (fut (run ops st)) = error_ (fut st) /\
  callbacks_ (fut (run ops st)) = callbacks_ (fut st) /\
  (existsb is_moveValue ops = false ->
   value_ (fut (run ops st)) = value_ (fut st)).
Proof.
  revert st. induction ops as [|op ops IH]; intros st H.
  - repeat split; try exact H; reflexivity.
  - rewrite run_cons.
    destruct (exec_completed_frame op st H) as (Hc' & He' & Hq' & Hv').
    destruct (IH (exec op st) Hc') as (Hc & He & Hq & Hv).
    repeat split; try congruence.
    cbn [existsb]. intros Hm. apply orb_false_iff in Hm as [Hop Hops].
    rewrite (Hv Hops). apply Hv', Hop.
Qed.

Lemma run_completed_mono (ops : list Op) (st : State) :
  completed_ (fut st) = true -> completed_ (fut (run ops st)) = true.
Proof. intros H. apply (run_completed_frame ops st H). Qed.


(** ** Histories that end on an incomplete cell *)

Lemma incomplete_before (op : Op) (st : State) :
  completed_ (fut (exec op st)) = false -> completed_ (fut st) = false.
Proof.
  intros H. destruct (completed_ (fut st)) eqn:E; [|reflexivity].
  rewrite (exec_completed_mono op st E) in H. discriminate.
Qed.

(** A call that leaves the cell incomplete was not a completion: it kept the
    error, appended to the queue exactly when it was [addCallback], and kept
    the value unless it was [moveValue]. *)
Lemma exec_incomplete_frame (op : Op) (st : State) :
  completed_ (fut (exec op st)) = false ->
  error_ (fut (exec op st)) = error_ (fut st) /\
  callbacks_ (fut (exec op st)) = callbacks_ (fut st) ++ registered [op] /\
  (is_moveValue op = false -> value_ (fut (exec op st)) = value_ (fut st)).
Proof.
  intros H. pose proof (incomplete_before op st H) as E.
  destruct op; cbn [exec registered] in *;
    rewrite ?wait_state, ?waitNoThrow_state, ?app_nil_r in *.
  - repeat split; reflexivity.
  - repeat split; reflexivity.
  - repeat split; try reflexivity. discriminate.
  - rewrite (markCompleted_fut _ _ E) in H. discriminate.
  - rewrite (setError_fut _ _ E) in H. discriminate.
  - repeat split; reflexivity.
  - repeat split; reflexivity.
  - repeat split; reflexivity.
  - rewrite (addCallback_incomplete _ _ E). repeat split; reflexivity.
  - repeat split; reflexivity.
Qed.

Lemma registered_app (ops1 ops2 : list Op) :
  registered (ops1 ++ ops2) = registered ops1 ++ registered ops2.
Proof.
  induction ops1 as [|op ops1 IH]; [reflexivity|].
  destruct op; cbn [app registered]; rewrite IH; reflexivity.
Qed.

Lemma run_incomplete_frame (ops : list Op) (st : State) :
  completed_ (fut (run ops st)) = false ->
  completed_ (fut st) = false /\
  error_ (fut (run ops st)) = error_ (fut st) /\
  callbacks_ (fut (run ops st)) = callbacks_ (fut st) ++ registered ops /\
  (existsb is_moveValue ops = false ->
   value_ (fut (run ops st)) = value_ (fut st)).
Proof.
  revert st. induction ops as [|op ops IH]; intros st H.
  - cbn. rewrite app_nil_r. repeat split; try exact H; reflexivity.
  - rewrite run_cons in *.
    destruct (IH _ H) as (Hc & He & Hq & Hv).
    destruct (exec_incomplete_frame op st Hc) as (He' & Hq' & Hv').
    repeat split.
    + exact (incomplete_before op st Hc).
    + congruence.
    + rewrite Hq, Hq', <- app_assoc.
      change (op :: ops) with ([op] ++ ops). rewrite registered_app. reflexivity.
    + cbn [existsb]. intros Hm. apply orb_false_iff in Hm as [Hop Hops].
      rewrite (Hv Hops). apply Hv', Hop.
Qed.

(** ** The invariant of reachable cells *)

Lemma exec_inv (op : Op) (st : State) :
  cell_inv (fut st) -> cell_inv (fut (exec op st)).
Proof.
  unfold cell_inv. intros [Hi Hc]. destruct (completed_ (fut st)) eqn:E.
  - destruct (exec_completed_frame op st E) as (Hc' & He' & Hq' & _).
    split; intros H; [congruence|]. rewrite Hq'. apply Hc. reflexivity.
  - destruct (completed_ (fut (exec op st))) eqn:E'.
    + split; intros H; [discriminate|].
      destruct op; cbn [exec] in *;
        rewrite ?wait_state, ?waitNoThrow_state, ?(markCompleted_fut _ _ E),
          ?(setError_fut _ _ E), ?(addCallback_incomplete _ _ E) in *;
        cbn in *; try reflexivity; congruence.
    + destruct (exec_incomplete_frame op st E') as (He' & _).
      split; intros H; [|discriminate]. rewrite He'. apply Hi. reflexivity.
Qed.

Lemma reachable_inv (st : State) : reachable st -> cell_inv (fut st).
Proof.
  induction 1 as [w | v w | op st _ IH].
  - split; cbn; intros H; [reflexivity | discriminate].
  - split; cbn; intros H; [discriminate | reflexivity].
  - apply exec_inv, IH.
Qed.

Lemma reachable_run (ops : list Op) (st : State) :
  reachable st -> reachable (run ops st).
Proof.
  revert st. induction ops as [|op ops IH]; intros st H; [exact H|].
  rewrite run_cons. apply IH, reach_exec, H.
Qed.


Lemma completed_ret (st : State) (b : bool) :
  fst (completed st) = Ret b <-> completed_ (fut st) = b.
Proof.
  unfold completed, gets. cbn. split; [intros [=]; assumption | intros ->; reflexivity].
Qed.

Lemma completed_by_flag (st : State) :
  completed_by st -> completed_ (fut st) = true.
Proof.
  induction 1 as [v w tr | v st H | msg st H | op st _ IH].
  - reflexivity.
  - rewrite (markCompleted_fut _ _ H). reflexivity.
  - rewrite (setError_fut _ _ H). reflexivity.
  - apply exec_completed_mono, IH.
Qed.

Lemma wait_completed (st : State) :
  completed_ (fut st) = true ->
  wait st = (match error_ (fut st) with
             | Some err => Throw (AsyncFailure err)
             | None => Ret (value_ (fut st))
             end, st).
Proof.
  intros H. unfold wait, cv_wait, gets, bind. rewrite H. cbn.
  destruct (error_ (fut st)); reflexivity.
Qed.

Lemma waitNoThrow_completed (st : State) :
  completed_ (fut st) = true ->
  waitNoThrow st = (Ret (value_ (fut st)), st).
Proof.
  intros H. unfold waitNoThrow, cv_wait, gets, bind. rewrite H. reflexivity.
Qed.

(** The whole effect of the dispatch loop and the broadcast when no queued
    callback throws. *)
Lemma dispatch_nothrow (cbs : list Callback) (st : State) :
  Forall nothrow cbs ->
  (for_each cbs invoke ;; notify_all) st =
    (Ret tt,
     mkState (fut st)
       (fold_left (fun w cb => fst (cb (value_ (fut st)) (error_ (fut st)) w))
                  cbs (world st))
       (trace st ++ map (fun cb => EvCall cb (value_ (fut st)) (error_ (fut st))) cbs
                 ++ [EvNotifyAll])).
Proof.
  intros H. unfold bind. rewrite (for_each_invoke_nothrow _ _ H).
  unfold notify_all. cbn [fut world trace]. rewrite <- app_assoc. reflexivity.
Qed.

Lemma dispatch_count_end (cbs : list Callback) (st : State) :
  count_end (trace (snd ((for_each cbs invoke ;; notify_all) st))) =
  count_end (trace st).
Proof.
  unfold bind. pose proof (for_each_invoke_count_end cbs st) as H.
  destruct (for_each cbs invoke st) as [[[]| |] st']; cbn [snd] in *; try exact H.
  unfold notify_all. cbn [snd trace]. rewrite <- H.
  unfold count_end. rewrite filter_app, length_app. cbn. lia.
Qed.

(** X2.  [setError] never calls the recorder's [end()]: on every cell,
    completed or not, recorder attached or not, the number of [end()] calls in
    the trace is the same after the call as before it. *)
Theorem setError_count_end (errorMsg : string) (st : State) :
  count_end (trace (snd (setError errorMsg st))) = count_end (trace st).
Proof.
  destruct (completed_ (fut st)) eqn:E.
  - rewrite (setError_completed _ _ E). reflexivity.
  - rewrite (setError_incomplete _ _ E), dispatch_count_end. reflexivity.
Qed.

(** X1.  [markCompleted] on an incomplete cell with a recorder attached
    calls the recorder's [end()] exactly once, whatever the queued callbacks
    do. *)
Theorem markCompleted_count_end (value : T) (st : State) (rf : RecordFunction) :
  completed_ (fut st) = false -> rf_ (fut st) = Some rf ->
  count_end (trace (snd (markCompleted value st))) = S (count_end (trace st)).
Proof.
  intros E R. rewrite (markCompleted_incomplete _ _ E), dispatch_count_end.
  cbn [trace]. rewrite R. unfold count_end.
  rewrite filter_app, length_app. cbn. lia.
Qed.


(** ** The message of an error, read through [what()] *)

Lemma c_str_no_nul (s : string) : has_nul s = false -> c_str s = s.
Proof.
  induction s as [|c s IH]; [reflexivity|].
  cbn [has_nul c_str]. intros H. apply orb_false_iff in H as [Hc Hs].
  rewrite Hc, (IH Hs). reflexivity.
Qed.

Lemma c_str_has_nul (s : string) : has_nul (c_str s) = false.
Proof.
  induction s as [|c s IH]; [reflexivity|].
  cbn [c_str]. destruct (Ascii.eqb c Ascii.zero) eqn:E; [reflexivity|].
  cbn [has_nul]. rewrite E, IH. reflexivity.
Qed.

Lemma c_str_prefix (s : string) : String.prefix (c_str s) s = true.
Proof.
  induction s as [|c s IH]; [reflexivity|].
  cbn [c_str]. destruct (Ascii.eqb c Ascii.zero); [reflexivity|].
  cbn [String.prefix]. destruct (ascii_dec c c) as [_|N]; [exact IH | congruence].
Qed.

(** ** The properties of the completion protocol *)

(** C1.  Take a cell that is not yet completed.  Once [setError msg] has run
    on it, and whatever calls follow, [error()] holds the [FutureError] built
    from [msg], whose stored message is [msg] byte for byte, and [wait]
    throws that very error.  Its [what()] is [msg] read as a C string: the
    bytes of [msg] before the first NUL, so all of [msg] when [msg] holds no
    NUL.  Once [markCompleted v] has run on the cell instead, and whatever
    calls other than [moveValue] follow, [wait] returns [v] and does not
    throw. *)
Theorem wait_after_completion (st : State) (msg : string) (v : T) (ops : list Op) :
  reachable st ->
  completed_ (fut st) = false ->
  (let st' := run ops (snd (setError msg st)) in
   exists e, e = mkFutureError msg /\
             errorMsg_ e = msg /\
             error st' = (Ret (Some e), st') /\
             wait st' = (Throw (AsyncFailure e), st') /\
             what e = c_str msg /\
             String.prefix (what e) msg = true /\
             has_nul (what e) = false /\
             (has_nul msg = false -> what e = msg))
  /\
  (existsb is_moveValue ops = false ->
   let st' := run ops (snd (markCompleted v st)) in
   wait st' = (Ret v, st')).
Proof.
  intros Hr Hc. split.
  - cbn zeta. exists (mkFutureError msg).
    pose proof (setError_fut msg st Hc) as Hf.
    assert (Hc1 : completed_ (fut (snd (setError msg st))) = true)
      by (rewrite Hf; reflexivity).
    destruct (run_completed_frame ops _ Hc1) as (Hc2 & He & _).
    rewrite Hf in He. cbn [error_] in He.
    split; [reflexivity|]. split; [reflexivity|].
    split; [unfold error, gets; rewrite He; reflexivity|].
    split; [rewrite (wait_completed _ Hc2), He; reflexivity|].
    split; [reflexivity|].
    split; [apply c_str_prefix|].
    split; [apply c_str_has_nul | apply c_str_no_nul].
  - intros Hm. cbn zeta.
    pose proof (markCompleted_fut v st Hc) as Hf.
    assert (Hc1 : completed_ (fut (snd (markCompleted v st))) = true)
      by (rewrite Hf; reflexivity).
    destruct (run_completed_frame ops _ Hc1) as (Hc2 & He & _ & Hv).
    specialize (Hv Hm). rewrite Hf in He, Hv. cbn [error_ value_] in He, Hv.
    destruct (reachable_inv st Hr) as [Hnone _].
    rewrite (Hnone Hc) in He.
    rewrite (wait_completed _ Hc2), He, Hv. reflexivity.
Qed.

(** C2.  Let a history of calls on a freshly constructed cell leave it
    incomplete, and let none of the callbacks it registered throw.  Then
    either completion returns normally, leaves the queue empty, and calls
    exactly the registered callbacks, one call per registration, in
    registration order, each with the cell's value and error, before the
    broadcast; the outside world is the one those calls build in that
    order. *)
Theorem completion_runs_registered (w : W) (ops : list Op) (v : T) (msg : string) :
  let st := run ops (fresh w) in
  completed_ (fut st) = false ->
  Forall nothrow (registered ops) ->
  (exists st',
     markCompleted v st = (Ret tt, st') /\
     callbacks_ (fut st') = [] /\
     trace st' = trace st ++ end_events (rf_ (fut st))
                   ++ map (fun cb => EvCall cb v None) (registered ops)
                   ++ [EvNotifyAll] /\
     world st' = fold_left (fun w' cb => fst (cb v None w')) (registered ops)
                   (end_world (rf_ (fut st)) (world st)))
  /\
  (exists st',
     setError msg st = (Ret tt, st') /\
     callbacks_ (fut st') = [] /\
     trace st' = trace st
                   ++ map (fun cb => EvCall cb (value_ (fut st))
                                        (Some (mkFutureError msg)))
                        (registered ops)
                   ++ [EvNotifyAll] /\
     world st' = fold_left (fun w' cb => fst (cb (value_ (fut st))
                                                (Some (mkFutureError msg)) w'))
                   (registered ops) (world st)).
Proof.
  intros st Hc Hn.
  destruct (run_incomplete_frame ops (fresh w) Hc) as (_ & He & Hq & _).
  fold st in He, Hq. cbn in He, Hq.
  split.
  - rewrite (markCompleted_incomplete v st Hc), Hq, (dispatch_nothrow _ _ Hn).
    cbn [fut world trace value_ error_]. rewrite He.
    eexists. split; [reflexivity|]. cbn [fut world trace callbacks_].
    rewrite <- app_assoc. repeat split.
  - rewrite (setError_incomplete msg st Hc), Hq, (dispatch_nothrow _ _ Hn).
    cbn [fut world trace value_ error_].
    eexists. split; [reflexivity|]. cbn [fut world trace callbacks_].
    repeat split.
Qed.

(** C3.  On a cell whose [completed()] is true, [addCallback f] calls [f]
    once, on the spot, with the cell's current value and error, and leaves
    the cell, its queue included, as it was; it ends the way [f] ended.  On a
    cell whose [completed()] is false, [addCallback f] puts [f] at the back of
    the queue, returns, and calls nothing. *)
Theorem addCallback_dispatch (st : State) (f : Callback) :
  (fst (completed st) = Ret true ->
   let r := f (value_ (fut st)) (error_ (fut st)) (world st) in
   addCallback f st =
     (match snd r with None => Ret tt | Some x => Throw x end,
      mkState (fut st) (fst r)
              (trace st ++ [EvCall f (value_ (fut st)) (error_ (fut st))])))
  /\
  (fst (completed st) = Ret false ->
   exists st',
     addCallback f st = (Ret tt, st') /\
     callbacks_ (fut st') = callbacks_ (fut st) ++ [f] /\
     trace st' = trace st /\ world st' = world st /\
     completed_ (fut st') = false /\ value_ (fut st') = value_ (fut st) /\
     error_ (fut st') = error_ (fut st) /\ rf_ (fut st') = rf_ (fut st)).
Proof.
  split; intros H; apply completed_ret in H.
  - rewrite (addCallback_completed _ _ H). reflexivity.
  - rewrite (addCallback_incomplete _ _ H). eexists. split; [reflexivity|].
    cbn. repeat split. exact H.
Qed.

(** C4.  On a cell that is already completed, whether it was built from a
    value, completed by [markCompleted] or completed by [setError], and
    whatever was called on it since, both [markCompleted] and [setError] fail
    with the fatal DoubleComplete error. *)
Theorem double_completion_fails (st : State) (v : T) (msg : string) :
  completed_by st ->
  fst (markCompleted v st) = Throw DoubleComplete /\
  fst (setError msg st) = Throw DoubleComplete.
Proof.
  intros H. apply completed_by_flag in H.
  rewrite (markCompleted_completed _ _ H), (setError_completed _ _ H).
  split; reflexivity.
Qed.

(** C5.  [completed()] is monotone: once it has returned true on a cell it
    returns true after any one further call and after any sequence of
    further calls; no member function takes the flag back to false. *)
Theorem completed_monotone (st : State) :
  fst (completed st) = Ret true ->
  (forall op, fst (completed (exec op st)) = Ret true) /\
  (forall ops, fst (completed (run ops st)) = Ret true).
Proof.
  intros H. apply completed_ret in H. split; intros x; apply completed_ret.
  - apply exec_completed_mono, H.
  - apply run_completed_mono, H.
Qed.

(** C7.  On a completed cell [waitNoThrow] returns the value slot and never
    throws or blocks, error or no error.  If the cell was default-constructed
    and completed by [setError], with no [moveValue] before or after, the
    slot returned is the default-initialised value of [T] while the error is
    present. *)
Theorem waitNoThrow_value_slot :
  (forall st : State, fst (completed st) = Ret true ->
     waitNoThrow st = (Ret (value_ (fut st)), st))
  /\
  (forall (w : W) (ops : list Op) (msg : string) (ops' : list Op),
     let st := run ops (fresh w) in
     completed_ (fut st) = false ->
     existsb is_moveValue (ops ++ ops') = false ->
     let st' := run ops' (snd (setError msg st)) in
     waitNoThrow st' = (Ret default_T, st') /\
     error_ (fut st') = Some (mkFutureError msg)).
Proof.
  split.
  - intros st H. apply completed_ret in H. apply waitNoThrow_completed, H.
  - intros w ops msg ops' st Hc Hm st'.
    rewrite existsb_app in Hm. apply orb_false_iff in Hm as [Hm Hm'].
    destruct (run_incomplete_frame ops (fresh w) Hc) as (_ & _ & _ & Hv).
    specialize (Hv Hm). fold st in Hv. cbn in Hv.
    pose proof (setError_fut msg st Hc) as Hf.
    assert (Hc1 : completed_ (fut (snd (setError msg st))) = true)
      by (rewrite Hf; reflexivity).
    destruct (run_completed_frame ops' _ Hc1) as (Hc2 & He & _ & Hv').
    specialize (Hv' Hm'). fold st' in Hc2, He, Hv'.
    rewrite Hf in He, Hv'. cbn [error_ value_] in He, Hv'.
    rewrite (waitNoThrow_completed _ Hc2), Hv', Hv. split; [reflexivity | exact He].
Qed.

(** C8.  A cell built from a value [v]: [completed()] returns true,
    [hasError()] returns false, [wait] returns [v] without throwing, and
    [addCallback f] calls [f] on the spot with [v] and no error, storing
    nothing. *)
Theorem pre_completed_cell (v : T) (w : W) (tr : list Event) (f : Callback) :
  let st := mkState (Future_value v) w tr in
  completed st = (Ret true, st) /\
  hasError st = (Ret false, st) /\
  wait st = (Ret v, st) /\
  addCallback f st =
    (match snd (f v None w) with None => Ret tt | Some x => Throw x end,
     mkState (Future_value v) (fst (f v None w)) (tr ++ [EvCall f v None])).
Proof. cbn zeta. repeat split. Qed.

(** C9.  A completion attempted on a cell whose [completed()] is true fails
    and changes nothing: the cell (flag, value, error, queue, recorder), the
    outside world and the trace are as before, so no callback ran, no
    broadcast was made and [end()] was not called. *)
Theorem failed_completion_changes_nothing (st : State) (v : T) (msg : string) :
  fst (completed st) = Ret true ->
  markCompleted v st = (Throw DoubleComplete, st) /\
  setError msg st = (Throw DoubleComplete, st).
Proof.
  intros H. apply completed_ret in H.
  split; [apply markCompleted_completed | apply setError_completed]; exact H.
Qed.

(** C10.  [moveValue] checks nothing: on every cell, incomplete, completed
    with a value or completed with an error, it returns what the value slot
    holds, does not throw or block, and leaves the flag, the error, the queue,
    the recorder, the outside world and the trace as they were. *)
Theorem moveValue_unchecked (st : State) :
  exists st',
    moveValue st = (Ret (value_ (fut st)), st') /\
    completed_ (fut st') = completed_ (fut st) /\
    error_ (fut st') = error_ (fut st) /\
    callbacks_ (fut st') = callbacks_ (fut st) /\
    rf_ (fut st') = rf_ (fut st) /\
    world st' = world st /\ trace st' = trace st.
Proof. eexists. split; [reflexivity|]. cbn. repeat split. Qed.

(** X3.  On a reachable cell that is not completed, [hasError()] returns
    false and [error()] returns no error. *)
Theorem hasError_false_while_incomplete (st : State) :
  reachable st ->
  fst (completed st) = Ret false ->
  hasError st = (Ret false, st) /\ error st = (Ret None, st).
Proof.
  intros Hr Hc. apply completed_ret in Hc.
  destruct (reachable_inv st Hr) as [Hnone _].
  unfold hasError, error, gets, bind. rewrite (Hnone Hc). split; reflexivity.
Qed.

(** X4.  On a reachable cell that is completed the callbacks queue is empty,
    and it stays empty under every further sequence of calls. *)
Theorem queue_empty_once_completed (st : State) (ops : list Op) :
  reachable st ->
  fst (completed st) = Ret true ->
  callbacks_ (fut st) = [] /\ callbacks_ (fut (run ops st)) = [].
Proof.
  intros Hr Hc. apply completed_ret in Hc.
  destruct (reachable_inv st Hr) as [_ Hq].
  destruct (run_completed_frame ops st Hc) as (_ & _ & Hq' & _).
  split; [apply Hq, Hc | rewrite Hq'; apply Hq, Hc].
Qed.

(** ** Whole histories *)

(** The flag after one call: what it was, or true if the call was a
    completion. *)
Lemma exec_completed_flag (op : Op) (st : State) :
  completed_ (fut (exec op st)) = completed_ (fut st) || is_completion op.
Proof.
  destruct (completed_ (fut st)) eqn:E.
  - rewrite (exec_completed_mono op st E). reflexivity.
  - destruct op; cbn [exec is_completion orb];
      rewrite ?wait_state, ?waitNoThrow_state, ?(markCompleted_fut _ _ E),
        ?(setError_fut _ _ E), ?(addCallback_incomplete _ _ E);
      cbn; try exact E; reflexivity.
Qed.

Lemma run_completed_flag (ops : list Op) (st : State) :
  completed_ (fut (run ops st)) = completed_ (fut st) || existsb is_completion ops.
Proof.
  revert st. induction ops as [|op ops IH]; intros st.
  - cbn. rewrite orb_false_r. reflexivity.
  - rewrite run_cons, IH, exec_completed_flag. cbn [existsb].
    rewrite orb_assoc. reflexivity.
Qed.

(** X5.  [completed()] after a history of calls returns true exactly when
    the cell was completed at the start or the history holds a call of
    [markCompleted] or [setError]; on a default-constructed cell, exactly when
    the history holds such a call.  No other member function completes a
    cell, and a completion call completes it even when it ends in an
    exception. *)
Theorem completed_iff_completion_called (ops : list Op) :
  (forall st : State,
     completed (run ops st)
       = (Ret (completed_ (fut st) || existsb is_completion ops), run ops st)) /\
  (forall w : W,
     completed (run ops (fresh w))
       = (Ret (existsb is_completion ops), run ops (fresh w))).
Proof.
  split; intros x; unfold completed, gets; rewrite run_completed_flag; reflexivity.
Qed.

(** X6.  As long as neither [markCompleted] nor [setError] has been called
    on a default-constructed cell, [wait] and [waitNoThrow] do not return,
    and they leave the cell, the outside world and the trace untouched. *)
Theorem wait_blocks_until_completion (w : W) (ops : list Op) :
  existsb is_completion ops = false ->
  wait (run ops (fresh w)) = (Block, run ops (fresh w)) /\
  waitNoThrow (run ops (fresh w)) = (Block, run ops (fresh w)).
Proof.
  intros H.
  assert (E : completed_ (fut (run ops (fresh w))) = false)
    by (rewrite run_completed_flag, H; reflexivity).
  unfold wait, waitNoThrow, cv_wait, gets, bind. rewrite E. split; reflexivity.
Qed.

(** X7.  A history made only of [wait], [waitNoThrow], [completed],
    [hasError] and [error] calls changes nothing, however each call ends: the
    cell, the outside world and the trace are what they were. *)
Theorem observers_change_nothing (ops : list Op) (st : State) :
  forallb is_observer ops = true -> run ops st = st.
Proof.
  revert st. induction ops as [|op ops IH]; intros st H; [reflexivity|].
  cbn [forallb] in H. apply andb_true_iff in H as [Hop Hops].
  rewrite run_cons, (IH _ Hops).
  destruct op; cbn [exec]; try discriminate Hop;
    rewrite ?wait_state, ?waitNoThrow_state; reflexivity.
Qed.

(** X8.  Once a cell is completed its outcome is fixed: after any further
    calls [error()] and [hasError()] answer as before, and, if none of those
    calls is [moveValue], [wait] and [waitNoThrow] end as before, with the
    same value or the same exception. *)
Theorem outcome_immutable (st : State) (ops : list Op) :
  fst (completed st) = Ret true ->
  fst (error (run ops st)) = fst (error st) /\
  fst (hasError (run ops st)) = fst (hasError st) /\
  (existsb is_moveValue ops = false ->
   fst (wait (run ops st)) = fst (wait st) /\
   fst (waitNoThrow (run ops st)) = fst (waitNoThrow st)).
Proof.
  intros H. apply completed_ret in H.
  destruct (run_completed_frame ops st H) as (Hc & He & _ & Hv).
  split; [|split; [|intros Hm; split]].
  - unfold error, gets. cbn. rewrite He. reflexivity.
  - unfold hasError, gets, bind. cbn. rewrite He. reflexivity.
  - rewrite (wait_completed _ Hc), (wait_completed _ H), He, (Hv Hm). reflexivity.
  - rewrite (waitNoThrow_completed _ Hc), (waitNoThrow_completed _ H), (Hv Hm).
    reflexivity.
Qed.

(** The recorder after one call. *)
Lemma exec_rf (op : Op) (st : State) :
  rf_ (fut (exec op st)) = last_attached [op] (rf_ (fut st)).
Proof.
  destruct (completed_ (fut st)) eqn:E;
    destruct op; cbn [exec last_attached];
    rewrite ?wait_state, ?waitNoThrow_state,
      ?(markCompleted_completed _ _ E), ?(setError_completed _ _ E),
      ?(addCallback_completed _ _ E),
      ?(markCompleted_fut _ _ E), ?(setError_fut _ _ E),
      ?(addCallback_incomplete _ _ E); reflexivity.
Qed.

Lemma last_attached_cons (op : Op) (ops : list Op) (r : option RecordFunction) :
  last_attached (op :: ops) r = last_attached ops (last_attached [op] r).
Proof. destruct op; reflexivity. Qed.

Lemma run_rf (ops : list Op) (st : State) :
  rf_ (fut (run ops st)) = last_attached ops (rf_ (fut st)).
Proof.
  revert st. induction ops as [|op ops IH]; intros st; [reflexivity|].
  rewrite run_cons, IH, exec_rf, <- last_attached_cons. reflexivity.
Qed.

(** ** The shape of what a completion adds to the trace *)

Lemma for_each_invoke_shape (cbs : list Callback) (st : State) :
  exists k,
    trace (snd (for_each cbs invoke st))
      = trace st ++ map (fun cb => EvCall cb (value_ (fut st)) (error_ (fut st)))
                        (firstn k cbs).
Proof.
  revert st. induction cbs as [|cb cbs IH]; intros st.
  - exists 0. cbn. rewrite app_nil_r. reflexivity.
  - cbn [for_each]. unfold bind at 1. unfold invoke at 1.
    destruct (snd (cb _ _ _)).
    + exists 1. reflexivity.
    + destruct (IH (mkState (fut st)
                      (fst (cb (value_ (fut st)) (error_ (fut st)) (world st)))
                      (trace st ++ [EvCall cb (value_ (fut st)) (error_ (fut st))])))
        as [k Hk].
      exists (S k). rewrite Hk. cbn [fut trace firstn map].
      rewrite <- app_assoc. reflexivity.
Qed.

(** The loop and the broadcast add calls of a front part of the queue and
    then at most one broadcast. *)
Lemma dispatch_shape (cbs : list Callback) (st : State) :
  exists k (n : bool),
    trace (snd ((for_each cbs invoke ;; notify_all) st))
      = trace st ++ map (fun cb => EvCall cb (value_ (fut st)) (error_ (fut st)))
                        (firstn k cbs)
                 ++ (if n then [EvNotifyAll] else []).
Proof.
  destruct (for_each_invoke_shape cbs st) as [k Hk]. unfold bind.
  destruct (for_each cbs invoke st) as [[[]| |] st']; cbn [snd] in *.
  - exists k, true. unfold notify_all. cbn [snd trace].
    rewrite Hk, <- app_assoc. reflexivity.
  - exists k, false. rewrite Hk, app_nil_r. reflexivity.
  - exists k, false. rewrite Hk, app_nil_r. reflexivity.
Qed.

Lemma markCompleted_shape (value : T) (st : State) :
  completed_ (fut st) = false ->
  exists k (n : bool),
    trace (snd (markCompleted value st))
      = trace st ++ end_events (rf_ (fut st))
          ++ map (fun cb => EvCall cb value (error_ (fut st)))
                 (firstn k (callbacks_ (fut st)))
          ++ (if n then [EvNotifyAll] else []).
Proof.
  intros E. rewrite (markCompleted_incomplete _ _ E).
  destruct (dispatch_shape (callbacks_ (fut st))
              (mkState (mkFuture true [] value (error_ (fut st)) (rf_ (fut st)))
                 (end_world (rf_ (fut st)) (world st))
                 (trace st ++ end_events (rf_ (fut st))))) as (k & n & H).
  exists k, n. rewrite H. cbn [fut trace value_ error_].
  rewrite <- app_assoc. reflexivity.
Qed.

Lemma setError_shape (errorMsg : string) (st : State) :
  completed_ (fut st) = false ->
  exists k (n : bool),
    trace (snd (setError errorMsg st))
      = trace st
          ++ map (fun cb => EvCall cb (value_ (fut st)) (Some (mkFutureError errorMsg)))
                 (firstn k (callbacks_ (fut st)))
          ++ (if n then [EvNotifyAll] else []).
Proof.
  intros E. rewrite (setError_incomplete _ _ E).
  destruct (dispatch_shape (callbacks_ (fut st))
              (mkState (mkFuture true [] (value_ (fut st))
                          (Some (mkFutureError errorMsg)) (rf_ (fut st)))
                 (world st) (trace st))) as (k & n & H).
  exists k, n. rewrite H. reflexivity.
Qed.

(** A call that leaves the cell incomplete called nothing. *)
Lemma exec_incomplete_trace (op : Op) (st : State) :
  completed_ (fut (exec op st)) = false -> trace (exec op st) = trace st.
Proof.
  intros H. pose proof (incomplete_before op st H) as E.
  destruct op; cbn [exec] in *;
    rewrite ?wait_state, ?waitNoThrow_state in *; try reflexivity.
  - rewrite (markCompleted_fut _ _ E) in H. discriminate.
  - rewrite (setError_fut _ _ E) in H. discriminate.
  - rewrite (addCallback_incomplete _ _ E). reflexivity.
Qed.

(** On a completed cell the only call that leaves the cell is the in-place
    call of a callback by [addCallback]. *)
Lemma exec_completed_trace (op : Op) (st : State) :
  completed_ (fut st) = true ->
  trace (exec op st)
    = trace st ++ map (fun cb => EvCall cb (value_ (fut st)) (error_ (fut st)))
                      (registered [op]).
Proof.
  intros E. destruct op; cbn [exec registered map];
    rewrite ?wait_state, ?waitNoThrow_state, ?(markCompleted_completed _ _ E),
      ?(setError_completed _ _ E), ?(addCallback_completed _ _ E), ?app_nil_r;
    reflexivity.
Qed.

Lemma calls_app (tr1 tr2 : list Event) :
  calls (tr1 ++ tr2) = calls tr1 ++ calls tr2.
Proof.
  induction tr1 as [|ev tr1 IH]; [reflexivity|].
  destruct ev; cbn [app calls]; rewrite IH; reflexivity.
Qed.

Lemma calls_map (v : T) (e : option FutureError) (cbs : list Callback) :
  calls (map (fun cb => EvCall cb v e) cbs) = cbs.
Proof. induction cbs as [|cb cbs IH]; cbn; [|rewrite IH]; reflexivity. Qed.

Lemma filter_calls (p : Event -> bool) (v : T) (e : option FutureError)
      (cbs : list Callback) :
  (forall cb v' e', p (EvCall cb v' e') = false) ->
  filter p (map (fun cb => EvCall cb v e) cbs) = [].
Proof.
  intros Hp. induction cbs as [|cb cbs IH]; [reflexivity|].
  cbn [map filter]. rewrite Hp. exact IH.
Qed.

Lemma filter_end_events (r : option RecordFunction) :
  filter is_end (end_events (T:=T) r) = end_events r.
Proof. destruct r; reflexivity. Qed.

(** X9.  The recorder a cell holds is the one handed to the last
    [attachRecordFunction] call; no other member function, the completions
    included, sets or clears it.  [markCompleted] on a cell that is still
    incomplete ends that recorder and no other. *)
Theorem recorder_is_last_attached (ops : list Op) (st : State) (v : T) :
  rf_ (fut (run ops st)) = last_attached ops (rf_ (fut st)) /\
  (completed_ (fut (run ops st)) = false ->
   filter is_end (trace (snd (markCompleted v (run ops st))))
     = filter is_end (trace (run ops st))
         ++ end_events (last_attached ops (rf_ (fut st)))).
Proof.
  split; [apply run_rf|]. intros E.
  destruct (markCompleted_shape v _ E) as (k & n & H). rewrite H.
  rewrite !filter_app, filter_end_events, run_rf.
  rewrite (filter_calls is_end) by reflexivity.
  destruct n; cbn [filter is_end app]; rewrite app_nil_r; reflexivity.
Qed.

(** ** How often a cell signals *)

Lemma count_end_app (tr1 tr2 : list Event) :
  count_end (tr1 ++ tr2) = count_end tr1 + count_end tr2.
Proof. unfold count_end. rewrite filter_app, length_app. reflexivity. Qed.

Lemma count_notify_app (tr1 tr2 : list Event) :
  count_notify (tr1 ++ tr2) = count_notify tr1 + count_notify tr2.
Proof. unfold count_notify. rewrite filter_app, length_app. reflexivity. Qed.

Lemma count_calls (v : T) (e : option FutureError) (cbs : list Callback) :
  count_end (map (fun cb => EvCall cb v e) cbs) = 0 /\
  count_notify (map (fun cb => EvCall cb v e) cbs) = 0.
Proof.
  unfold count_end, count_notify.
  rewrite (filter_calls is_end), (filter_calls is_notify) by reflexivity.
  split; reflexivity.
Qed.

(** One call on an incomplete cell adds at most one [end()] and at most one
    broadcast. *)
Lemma exec_incomplete_counts (op : Op) (st : State) :
  completed_ (fut st) = false ->
  count_end (trace (exec op st)) <= S (count_end (trace st)) /\
  count_notify (trace (exec op st)) <= S (count_notify (trace st)).
Proof.
  intros E. destruct op as [ | | | value | errorMsg | | | | cb | r]; cbn [exec];
    rewrite ?wait_state, ?waitNoThrow_state, ?(addCallback_incomplete _ _ E);
    try (match goal with
         | |- context [trace ?s] =>
             change (trace s) with (trace st); split; lia
         end).
  - destruct (markCompleted_shape value st E) as (k & n & H). rewrite H.
    rewrite !count_end_app, !count_notify_app.
    destruct (count_calls value (error_ (fut st)) (firstn k (callbacks_ (fut st))))
      as [-> ->].
    destruct (rf_ (fut st)), n; cbn; split; lia.
  - destruct (setError_shape errorMsg st E) as (k & n & H). rewrite H.
    rewrite !count_end_app, !count_notify_app.
    destruct (count_calls (value_ (fut st)) (Some (mkFutureError errorMsg))
                (firstn k (callbacks_ (fut st)))) as [-> ->].
    destruct n; cbn; split; lia.
Qed.

(** Calls on a completed cell add neither. *)
Lemma run_completed_counts (ops : list Op) (st : State) :
  completed_ (fut st) = true ->
  count_end (trace (run ops st)) = count_end (trace st) /\
  count_notify (trace (run ops st)) = count_notify (trace st).
Proof.
  revert st. induction ops as [|op ops IH]; intros st E; [split; reflexivity|].
  rewrite run_cons.
  destruct (IH _ (exec_completed_mono op st E)) as [-> ->].
  rewrite (exec_completed_trace op st E), count_end_app, count_notify_app.
  destruct (count_calls (value_ (fut st)) (error_ (fut st)) (registered [op]))
    as [-> ->].
  split; lia.
Qed.

Lemma run_incomplete_counts (ops : list Op) (st : State) :
  completed_ (fut st) = false ->
  count_end (trace st) = 0 -> count_notify (trace st) = 0 ->
  count_end (trace (run ops st)) <= 1 /\ count_notify (trace (run ops st)) <= 1.
Proof.
  revert st. induction ops as [|op ops IH]; intros st E He Hn.
  - cbn. split; lia.
  - rewrite run_cons. destruct (completed_ (fut (exec op st))) eqn:E'.
    + destruct (run_completed_counts ops _ E') as [-> ->].
      destruct (exec_incomplete_counts op st E) as [H1 H2]. split; lia.
    + apply (IH _ E'); rewrite (exec_incomplete_trace op st E'); assumption.
Qed.

(** X10.  Over the whole life of a cell, whatever is called on it and
    however the callbacks behave, the recorder's [end()] is called at most
    once and [notify_all()] is called at most once; on a cell built from a
    value neither is ever called. *)
Theorem signals_at_most_once (ops : list Op) (w : W) (v : T) :
  count_end (trace (run ops (fresh w))) <= 1 /\
  count_notify (trace (run ops (fresh w))) <= 1 /\
  count_end (trace (run ops (fresh_value v w))) = 0 /\
  count_notify (trace (run ops (fresh_value v w))) = 0.
Proof.
  destruct (run_incomplete_counts ops (fresh w) eq_refl eq_refl eq_refl) as [H1 H2].
  destruct (run_completed_counts ops (fresh_value v w) eq_refl) as [H3 H4].
  repeat split; assumption.
Qed.

(** ** A callback that throws *)

Lemma for_each_invoke_throw (q1 q2 : list Callback) (cb : Callback) (x : Exn)
      (st : State) :
  Forall nothrow q1 ->
  let v := value_ (fut st) in
  let e := error_ (fut st) in
  let w1 := fold_left (fun w c => fst (c v e w)) q1 (world st) in
  snd (cb v e w1) = Some x ->
  for_each (q1 ++ cb :: q2) invoke st =
    (Throw x,
     mkState (fut st) (fst (cb v e w1))
             (trace st ++ map (fun c => EvCall c v e) (q1 ++ [cb]))).
Proof.
  revert st. induction q1 as [|c q1 IH]; intros st Hn v e w1 Hx.
  - cbn [app for_each]. unfold bind at 1. unfold invoke at 1.
    cbn in w1. subst w1 v e. rewrite Hx. reflexivity.
  - inversion Hn as [|? ? Hc Hq]; subst.
    cbn [app for_each]. unfold bind at 1. unfold invoke at 1.
    rewrite Hc.
    rewrite (IH (mkState (fut st)
                   (fst (c (value_ (fut st)) (error_ (fut st)) (world st)))
                   (trace st ++ [EvCall c (value_ (fut st)) (error_ (fut st))]))
                Hq Hx).
    cbn [fut world trace map app]. rewrite <- app_assoc. reflexivity.
Qed.

(** X11.  Let the queue of an incomplete cell hold callbacks that return
    normally, then one that throws.  Either completion then ends with that
    exception, right after that callback: the callbacks queued behind it are
    not called and [notify_all()] is not called, yet the cell is left
    completed, holding the new value or error, with an empty queue. *)
Theorem throwing_callback_aborts_batch (st : State) (q1 q2 : list Callback)
        (cb : Callback) (x : Exn) (value : T) (errorMsg : string) :
  completed_ (fut st) = false ->
  callbacks_ (fut st) = q1 ++ cb :: q2 ->
  Forall nothrow q1 ->
  (let e := error_ (fut st) in
   let w1 := fold_left (fun w c => fst (c value e w)) q1
               (end_world (rf_ (fut st)) (world st)) in
   snd (cb value e w1) = Some x ->
   markCompleted value st =
     (Throw x,
      mkState (mkFuture true [] value e (rf_ (fut st)))
              (fst (cb value e w1))
              (trace st ++ end_events (rf_ (fut st))
                 ++ map (fun c => EvCall c value e) (q1 ++ [cb]))))
  /\
  (let v := value_ (fut st) in
   let e := Some (mkFutureError errorMsg) in
   let w1 := fold_left (fun w c => fst (c v e w)) q1 (world st) in
   snd (cb v e w1) = Some x ->
   setError errorMsg st =
     (Throw x,
      mkState (mkFuture true [] v e (rf_ (fut st)))
              (fst (cb v e w1))
              (trace st ++ map (fun c => EvCall c v e) (q1 ++ [cb])))).
Proof.
  intros E Hq Hn. split; cbn zeta; intros Hx.
  - rewrite (markCompleted_incomplete _ _ E), Hq. unfold bind.
    pose proof (for_each_invoke_throw q1 q2 cb x
                  (mkState (mkFuture true [] value (error_ (fut st)) (rf_ (fut st)))
                     (end_world (rf_ (fut st)) (world st))
                     (trace st ++ end_events (rf_ (fut st)))) Hn) as L.
    cbn zeta in L. cbn [fut world trace value_ error_] in L.
    rewrite (L Hx), <- app_assoc. reflexivity.
  - rewrite (setError_incomplete _ _ E), Hq. unfold bind.
    pose proof (for_each_invoke_throw q1 q2 cb x
                  (mkState (mkFuture true [] (value_ (fut st))
                              (Some (mkFutureError errorMsg)) (rf_ (fut st)))
                     (world st) (trace st)) Hn) as L.
    cbn zeta in L. cbn [fut world trace value_ error_] in L.
    rewrite (L Hx). reflexivity.
Qed.

(** ** Every registration, over a whole history *)

Lemma registered_cons (op : Op) (ops : list Op) :
  registered (op :: ops) = registered [op] ++ registered ops.
Proof. destruct op; reflexivity. Qed.

(** On a completed cell the callbacks called are those handed to
    [addCallback], throwing or not. *)
Lemma run_completed_calls (ops : list Op) (st : State) :
  completed_ (fut st) = true ->
  calls (trace (run ops st)) = calls (trace st) ++ registered ops.
Proof.
  revert st. induction ops as [|op ops IH]; intros st E.
  - cbn. rewrite app_nil_r. reflexivity.
  - rewrite run_cons, (IH _ (exec_completed_mono op st E)),
      (exec_completed_trace op st E), calls_app, calls_map,
      (registered_cons op ops), app_assoc. reflexivity.
Qed.

(** A call that leaves the cell incomplete did not touch the outside
    world. *)
Lemma exec_incomplete_world (op : Op) (st : State) :
  completed_ (fut (exec op st)) = false -> world (exec op st) = world st.
Proof.
  intros H. pose proof (incomplete_before op st H) as E.
  destruct op; cbn [exec] in *;
    rewrite ?wait_state, ?waitNoThrow_state in *; try reflexivity.
  - rewrite (markCompleted_fut _ _ E) in H. discriminate.
  - rewrite (setError_fut _ _ E) in H. discriminate.
  - rewrite (addCallback_incomplete _ _ E). reflexivity.
Qed.

Lemma run_incomplete_outside (ops : list Op) (st : State) :
  completed_ (fut (run ops st)) = false ->
  trace (run ops st) = trace st /\ world (run ops st) = world st.
Proof.
  revert st. induction ops as [|op ops IH]; intros st H; [split; reflexivity|].
  rewrite run_cons in *. destruct (IH _ H) as [Ht Hw].
  destruct (run_incomplete_frame ops _ H) as (Hc & _).
  rewrite Ht, Hw, (exec_incomplete_trace op st Hc), (exec_incomplete_world op st Hc).
  split; reflexivity.
Qed.

(** X12.  While a default-constructed cell is not completed, whatever has
    been called on it so far: the queue holds exactly the callbacks handed to
    [addCallback], in the order they were handed in; none of them has been
    called; nothing else has left the cell either (no [end()], no
    [notify_all()]); and the outside world is as it was at construction. *)
Theorem registered_queued_until_completion (ops : list Op) (w : W) :
  fst (completed (run ops (fresh w))) = Ret false ->
  callbacks_ (fut (run ops (fresh w))) = registered ops /\
  trace (run ops (fresh w)) = [] /\
  world (run ops (fresh w)) = w.
Proof.
  intros H. apply completed_ret in H.
  destruct (run_incomplete_frame ops (fresh w) H) as (_ & _ & Hq & _).
  destruct (run_incomplete_outside ops (fresh w) H) as [Ht Hw].
  repeat split; assumption.
Qed.

(** X14.  [hasError()] tells the two outcomes apart.  After [setError] on an
    incomplete cell, whatever the message, the empty one included, and
    whatever calls follow, it returns true; after [markCompleted] on an
    incomplete cell, and whatever calls follow, it returns false. *)
Theorem hasError_tells_outcome (st : State) (msg : string) (v : T) (ops : list Op) :
  reachable st ->
  completed_ (fut st) = false ->
  hasError (run ops (snd (setError msg st)))
    = (Ret true, run ops (snd (setError msg st))) /\
  hasError (run ops (snd (markCompleted v st)))
    = (Ret false, run ops (snd (markCompleted v st))).
Proof.
  intros Hr E. destruct (reachable_inv st Hr) as [Hnone _].
  split.
  - pose proof (setError_fut msg st E) as Hf.
    assert (Hc : completed_ (fut (snd (setError msg st))) = true)
      by (rewrite Hf; reflexivity).
    destruct (run_completed_frame ops _ Hc) as (_ & He & _).
    unfold hasError, gets, bind. rewrite He, Hf. reflexivity.
  - pose proof (markCompleted_fut v st E) as Hf.
    assert (Hc : completed_ (fut (snd (markCompleted v st))) = true)
      by (rewrite Hf; reflexivity).
    destruct (run_completed_frame ops _ Hc) as (_ & He & _).
    unfold hasError, gets, bind. rewrite He, Hf. cbn [error_].
    rewrite (Hnone E). reflexivity.
Qed.

(** X15.  On a completed cell no further call ends a recorder or wakes
    waiters: whatever is called, [attachRecordFunction] with a new recorder
    included, the number of [end()] calls and of [notify_all()] calls stays
    what it was, and the only calls that leave the cell are the in-place
    calls of the callbacks handed to [addCallback], one each, in order. *)
Theorem completed_cell_only_calls_back (st : State) (ops : list Op) :
  fst (completed st) = Ret true ->
  count_end (trace (run ops st)) = count_end (trace st) /\
  count_notify (trace (run ops st)) = count_notify (trace st) /\
  calls (trace (run ops st)) = calls (trace st) ++ registered ops.
Proof.
  intros H. apply completed_ret in H.
  destruct (run_completed_counts ops st H) as [He Hn].
  repeat split; [exact He | exact Hn | apply run_completed_calls, H].
Qed.

End Facts.

(** ** The concrete cell at work *)

Import Demo.

(** Three callbacks, then [markCompleted(7)] on a profiled cell: the
    recorder first, the callbacks in registration order, the broadcast
    last. *)
Example scenario_callback_order :
  let st := run moved_from three_callbacks profiled_cell in
  markCompleted 7 st =
    (Ret tt,
     mkState (mkFuture true [] 7 None (Some recorder))
             ["end"; "c1"; "c2"; "c3"]
             [EvEnd recorder; EvCall (named "c1") 7 None;
              EvCall (named "c2") 7 None; EvCall (named "c3") 7 None;
              EvNotifyAll]).
Proof. reflexivity. Qed.

(** A callback that throws ends the batch: the callbacks behind it are not
    called and the broadcast is not made, yet the cell is completed and its
    queue is empty. *)
Example scenario_throwing_callback :
  let ops := [OpAddCallback (named "c1"); OpAddCallback (thrower "c2");
              OpAddCallback (named "c3")] in
  markCompleted 7 (run moved_from ops empty_cell) =
    (Throw (UserExn "c2"),
     mkState (mkFuture true [] 7 None None)
             ["c1"; "c2"]
             [EvCall (named "c1") 7 None; EvCall (thrower "c2") 7 None]).
Proof. reflexivity. Qed.

(** A message with a NUL byte inside: the error keeps all three bytes, its
    [what()] reads as the first one. *)
Example scenario_what_stops_at_nul :
  let msg := String "a" (String Ascii.zero (String "b" EmptyString)) in
  error (snd (setError msg empty_cell))
    = (Ret (Some (mkFutureError msg)), snd (setError msg empty_cell)) /\
  errorMsg_ (mkFutureError msg) = msg /\
  what (mkFutureError msg) = "a".
Proof. cbv zeta. repeat split. Qed.

(** [wait] on a cell nobody has completed does not return. *)
Example scenario_wait_blocks : wait empty_cell = (Block, empty_cell).
Proof. reflexivity. Qed.

(** C6.  Completing a profiled cell calls the recorder's [end()] once on the
    success path and not at all on the error path.  On the cell
    [Future<int> f; f.attachRecordFunction(rf);] the call [f.setError("boom")]
    completes the cell without a single call of [end()] and the recorder
    writes nothing, while [f.markCompleted(1)] on the same cell calls [end()]
    once. *)
Theorem setError_skips_recorder :
  rf_ (fut profiled_cell) = Some recorder /\
  (let st' := snd (setError "boom" profiled_cell) in
   completed_ (fut st') = true /\
   count_end (trace st') = 0 /\ world st' = []) /\
  (let st' := snd (markCompleted 1 profiled_cell) in
   completed_ (fut st') = true /\
   count_end (trace st') = 1 /\ world st' = ["end"]).
Proof. cbv zeta. repeat split. Qed.

Lemma wait_after_completion_witness :
  completed_ (fut empty_cell) = false /\
  (exists e, e = mkFutureError "boom" /\
     error (snd (setError "boom" empty_cell))
       = (Ret (Some e), snd (setError "boom" empty_cell)) /\
     wait (snd (setError "boom" empty_cell))
       = (Throw (AsyncFailure e), snd (setError "boom" empty_cell)) /\
     what e = "boom") /\
  wait (snd (markCompleted 42 empty_cell))
    = (Ret 42, snd (markCompleted 42 empty_cell)).
Proof.
  destruct (wait_after_completion default_T moved_from empty_cell "boom" 42 []
              (reach_default _ _ _) eq_refl)
    as [(e & He & _ & Her & Hw & _ & _ & _ & Hwhat) Hv].
  split; [reflexivity|]. split; [|exact (Hv eq_refl)].
  exists e. repeat split; [exact He | exact Her | exact Hw | exact (Hwhat eq_refl)].
Defined.

Lemma named_nothrow (name : string) : nothrow (named name).
Proof. intros v e w. reflexivity. Defined.

Lemma completion_runs_registered_witness :
  completed_ (fut (run moved_from three_callbacks empty_cell)) = false /\
  Forall nothrow (registered three_callbacks) /\
  exists st',
    markCompleted 7 (run moved_from three_callbacks empty_cell) = (Ret tt, st') /\
    callbacks_ (fut st') = [] /\
    trace st' = [EvCall (named "c1") 7 None; EvCall (named "c2") 7 None;
                 EvCall (named "c3") 7 None; EvNotifyAll].
Proof.
  assert (Hn : Forall nothrow (registered three_callbacks))
    by (repeat constructor; apply named_nothrow).
  split; [reflexivity|]. split; [exact Hn|].
  destruct (completion_runs_registered default_T moved_from [] three_callbacks 7 "boom"
              eq_refl Hn) as [[st' (Hm & Hq & Ht & _)] _].
  exists st'. repeat split; assumption.
Defined.

Lemma addCallback_dispatch_witness :
  fst (completed (fresh_value 7 ([] : W))) = Ret true /\
  addCallback (named "c") (fresh_value 7 [])
    = (Ret tt, mkState (Future_value 7) ["c"] [EvCall (named "c") 7 None]) /\
  fst (completed empty_cell) = Ret false /\
  exists st',
    addCallback (named "c") empty_cell = (Ret tt, st') /\
    callbacks_ (fut st') = [named "c"] /\ trace st' = [] /\ world st' = [].
Proof.
  destruct (addCallback_dispatch (fresh_value 7 []) (named "c")) as [Hc _].
  destruct (addCallback_dispatch empty_cell (named "c")) as [_ Hi].
  split; [reflexivity|]. split; [exact (Hc eq_refl)|]. split; [reflexivity|].
  destruct (Hi eq_refl) as [st' (Ha & Hq & Ht & Hw & _)].
  exists st'. repeat split; assumption.
Defined.

Lemma double_completion_fails_witness :
  completed_by moved_from (snd (setError "boom" empty_cell)) /\
  fst (markCompleted 1 (snd (setError "boom" empty_cell))) = Throw DoubleComplete /\
  fst (setError "again" (snd (setError "boom" empty_cell))) = Throw DoubleComplete.
Proof.
  assert (H : completed_by moved_from (snd (setError "boom" empty_cell)))
    by (apply by_setError; reflexivity).
  split; [exact H|].
  exact (double_completion_fails moved_from _ 1 "again" H).
Defined.

Lemma completed_monotone_witness :
  fst (completed (fresh_value 7 ([] : W))) = Ret true /\
  fst (completed (run moved_from
         [OpMoveValue; OpSetError "boom"; OpMarkCompleted 1;
          OpAddCallback (thrower "c"); OpAttachRecordFunction None]
         (fresh_value 7 []))) = Ret true.
Proof.
  split; [reflexivity|].
  apply (completed_monotone moved_from (fresh_value 7 []) eq_refl).
Defined.

Lemma waitNoThrow_value_slot_witness :
  fst (completed (snd (setError "boom" empty_cell))) = Ret true /\
  waitNoThrow (snd (setError "boom" empty_cell))
    = (Ret 0, snd (setError "boom" empty_cell)) /\
  error_ (fut (snd (setError "boom" empty_cell))) = Some (mkFutureError "boom").
Proof.
  destruct (waitNoThrow_value_slot (W:=W) default_T moved_from) as [_ H].
  split; [reflexivity|].
  exact (H [] [] "boom" [] eq_refl eq_refl).
Defined.

Lemma failed_completion_changes_nothing_witness :
  fst (completed (snd (markCompleted 1 profiled_cell))) = Ret true /\
  markCompleted 2 (snd (markCompleted 1 profiled_cell))
    = (Throw DoubleComplete, snd (markCompleted 1 profiled_cell)) /\
  setError "boom" (snd (markCompleted 1 profiled_cell))
    = (Throw DoubleComplete, snd (markCompleted 1 profiled_cell)).
Proof.
  split; [reflexivity|].
  exact (failed_completion_changes_nothing (snd (markCompleted 1 profiled_cell))
           2 "boom" eq_refl).
Defined.

Lemma markCompleted_count_end_witness :
  completed_ (fut profiled_cell) = false /\
  rf_ (fut profiled_cell) = Some recorder /\
  count_end (trace (snd (markCompleted 1 profiled_cell)))
    = S (count_end (trace profiled_cell)).
Proof.
  split; [reflexivity|]. split; [reflexivity|].
  exact (markCompleted_count_end 1 profiled_cell recorder eq_refl eq_refl).
Defined.

Lemma hasError_false_while_incomplete_witness :
  fst (completed (run moved_from three_callbacks empty_cell)) = Ret false /\
  hasError (run moved_from three_callbacks empty_cell)
    = (Ret false, run moved_from three_callbacks empty_cell) /\
  error (run moved_from three_callbacks empty_cell)
    = (Ret None, run moved_from three_callbacks empty_cell).
Proof.
  split; [reflexivity|].
  apply (hasError_false_while_incomplete default_T moved_from);
    [apply reachable_run, reach_default | reflexivity].
Defined.

Lemma queue_empty_once_completed_witness :
  fst (completed (snd (setError "boom" (run moved_from three_callbacks empty_cell))))
    = Ret true /\
  callbacks_ (fut (snd (setError "boom" (run moved_from three_callbacks empty_cell))))
    = [] /\
  callbacks_ (fut (run moved_from [OpAddCallback (named "c4")]
                     (snd (setError "boom" (run moved_from three_callbacks empty_cell)))))
    = [].
Proof.
  split; [reflexivity|].
  apply (queue_empty_once_completed default_T moved_from
           (snd (setError "boom" (run moved_from three_callbacks empty_cell)))
           [OpAddCallback (named "c4")]); [|reflexivity].
  apply (reach_exec default_T moved_from (OpSetError "boom")).
  apply reachable_run, reach_default.
Defined.

Lemma wait_blocks_until_completion_witness :
  existsb is_completion (OpMoveValue :: three_callbacks) = false /\
  wait (run moved_from (OpMoveValue :: three_callbacks) empty_cell)
    = (Block, run moved_from (OpMoveValue :: three_callbacks) empty_cell) /\
  waitNoThrow (run moved_from (OpMoveValue :: three_callbacks) empty_cell)
    = (Block, run moved_from (OpMoveValue :: three_callbacks) empty_cell).
Proof.
  split; [reflexivity|].
  exact (wait_blocks_until_completion default_T moved_from []
           (OpMoveValue :: three_callbacks) eq_refl).
Defined.

Lemma observers_change_nothing_witness :
  forallb (is_observer (T:=T) (W:=W))
    [OpWait; OpHasError; OpWaitNoThrow; OpError; OpCompleted] = true /\
  run moved_from [OpWait; OpHasError; OpWaitNoThrow; OpError; OpCompleted]
      (snd (setError "boom" profiled_cell))
    = snd (setError "boom" profiled_cell).
Proof.
  split; [reflexivity|].
  exact (observers_change_nothing moved_from
           [OpWait; OpHasError; OpWaitNoThrow; OpError; OpCompleted]
           (snd (setError "boom" profiled_cell)) eq_refl).
Defined.

Lemma outcome_immutable_witness :
  fst (completed (snd (setError "boom" empty_cell))) = Ret true /\
  fst (error (run moved_from [OpMarkCompleted 1; OpSetError "again"; OpMoveValue]
                (snd (setError "boom" empty_cell))))
    = Ret (Some (mkFutureError "boom")) /\
  fst (wait (run moved_from [OpMarkCompleted 1; OpSetError "again"]
               (snd (setError "boom" empty_cell))))
    = Throw (AsyncFailure (mkFutureError "boom")).
Proof.
  split; [reflexivity|].
  destruct (outcome_immutable moved_from (snd (setError "boom" empty_cell))
              [OpMarkCompleted 1; OpSetError "again"; OpMoveValue] eq_refl)
    as (He & _).
  destruct (outcome_immutable moved_from (snd (setError "boom" empty_cell))
              [OpMarkCompleted 1; OpSetError "again"] eq_refl)
    as (_ & _ & Hw).
  split; [exact He | exact (proj1 (Hw eq_refl))].
Defined.

Lemma recorder_is_last_attached_witness :
  completed_ (fut (run moved_from
                     [OpAttachRecordFunction (Some recorder);
                      OpAttachRecordFunction (Some recorder2)] empty_cell)) = false /\
  filter is_end
    (trace (snd (markCompleted 1
                   (run moved_from
                      [OpAttachRecordFunction (Some recorder);
                       OpAttachRecordFunction (Some recorder2)] empty_cell))))
    = [EvEnd recorder2].
Proof.
  split; [reflexivity|].
  exact (proj2 (recorder_is_last_attached moved_from
                  [OpAttachRecordFunction (Some recorder);
                   OpAttachRecordFunction (Some recorder2)] empty_cell 1) eq_refl).
Defined.

Lemma throwing_callback_aborts_batch_witness :
  completed_ (fut (run moved_from callbacks_with_thrower profiled_cell)) = false /\
  markCompleted 7 (run moved_from callbacks_with_thrower profiled_cell)
    = (Throw (UserExn "c2"),
       mkState (mkFuture true [] 7 None (Some recorder))
               ["end"; "c1"; "c2"]
               [EvEnd recorder; EvCall (named "c1") 7 None;
                EvCall (thrower "c2") 7 None]) /\
  setError "boom" (run moved_from callbacks_with_thrower profiled_cell)
    = (Throw (UserExn "c2"),
       mkState (mkFuture true [] 0 (Some (mkFutureError "boom")) (Some recorder))
               ["c1"; "c2"]
               [EvCall (named "c1") 0 (Some (mkFutureError "boom"));
                EvCall (thrower "c2") 0 (Some (mkFutureError "boom"))]).
Proof.
  assert (Hn : Forall nothrow [named "c1"])
    by (repeat constructor; apply named_nothrow).
  destruct (throwing_callback_aborts_batch
              (run moved_from callbacks_with_thrower profiled_cell)
              [named "c1"] [named "c3"] (thrower "c2") (UserExn "c2") 7 "boom"
              eq_refl eq_refl Hn) as [Hm Hs].
  split; [reflexivity|]. split; [exact (Hm eq_refl) | exact (Hs eq_refl)].
Defined.

Lemma registered_queued_until_completion_witness :
  fst (completed (run moved_from
         (OpAttachRecordFunction (Some recorder) :: callbacks_with_thrower)
         empty_cell)) = Ret false /\
  callbacks_ (fut (run moved_from
         (OpAttachRecordFunction (Some recorder) :: callbacks_with_thrower)
         empty_cell))
    = [named "c1"; thrower "c2"; named "c3"] /\
  trace (run moved_from
         (OpAttachRecordFunction (Some recorder) :: callbacks_with_thrower)
         empty_cell) = [] /\
  world (run moved_from
         (OpAttachRecordFunction (Some recorder) :: callbacks_with_thrower)
         empty_cell) = [].
Proof.
  split; [reflexivity|].
  exact (registered_queued_until_completion default_T moved_from
           (OpAttachRecordFunction (Some recorder) :: callbacks_with_thrower)
           [] eq_refl).
Defined.

Lemma hasError_tells_outcome_witness :
  completed_ (fut empty_cell) = false /\
  hasError (run moved_from [OpMoveValue] (snd (setError "" empty_cell)))
    = (Ret true, run moved_from [OpMoveValue] (snd (setError "" empty_cell))) /\
  hasError (run moved_from [OpMoveValue] (snd (markCompleted 1 empty_cell)))
    = (Ret false, run moved_from [OpMoveValue] (snd (markCompleted 1 empty_cell))).
Proof.
  split; [reflexivity|].
  exact (hasError_tells_outcome default_T moved_from empty_cell "" 1 [OpMoveValue]
           (reach_default _ _ _) eq_refl).
Defined.

Lemma completed_cell_only_calls_back_witness :
  fst (completed (snd (setError "boom" empty_cell))) = Ret true /\
  count_end (trace (run moved_from
      [OpAttachRecordFunction (Some recorder); OpMarkCompleted 1;
       OpAddCallback (thrower "late")]
      (snd (setError "boom" empty_cell)))) = 0 /\
  calls (trace (run moved_from
      [OpAttachRecordFunction (Some recorder); OpMarkCompleted 1;
       OpAddCallback (thrower "late")]
      (snd (setError "boom" empty_cell)))) = [thrower "late"].
Proof.
  split; [reflexivity|].
  destruct (completed_cell_only_calls_back moved_from
              (snd (setError "boom" empty_cell))
              [OpAttachRecordFunction (Some recorder); OpMarkCompleted 1;
               OpAddCallback (thrower "late")] eq_refl) as (He & _ & Hc).
  split; [exact He | exact Hc].
Defined.

End Future.
